(** * Version extraction and reconciliation pipeline

    A shallow embedding of
    - [data_collection/versioning/merge_final_data.py] (the Reconciler:
      [merge] and the sort pass of [main]), and
    - [data_collection/versioning/get_versions_by_git.py] (the repository
      cache, the per-task snapshot extraction and the driver [main]),
    together with the properties the specification states about them.

    Python values are the JSON-decoded values the two scripts handle.
    Floating-point numbers are outside the model: a JSON number is an
    integer here.  A string is a sequence of code points below 256 (the
    Latin-1 range), one character each; texts with code points beyond
    it are outside the model.  The character classes of the source are
    the Unicode ones restricted to this range: the decimal digits ([\d],
    the digits [int] accepts) are [0] to [9], and the white space is
    given below. *)

From Stdlib Require Import ZArith String Ascii List Sorting.Sorted.
From stdpp Require Import gmap strings list fin_maps sorting.

Set Warnings "-register-all".

(** ** Python values, exceptions and results *)

Inductive value : Type :=
| VNone
| VBool (b : bool)
| VInt (z : Z)
| VStr (s : string)
| VList (l : list value)
| VDict (d : list (string * value)).

(** A task or version record: a [dict] with string keys, as [json.loads]
    builds it.  Equality of [dict]s ignores insertion order, and so does
    equality of [gmap]s. *)
Abbreviation record := (gmap string value).

Inductive exn : Type :=
| KeyError
| TypeError
| ValueError
| AttributeError
| RuntimeError
| NotADirectoryError
| FileNotFoundError
| CalledProcessError
| OSError
| JSONDecodeError
| KeyboardInterrupt.

(** [except Exception] catches every exception of the model but
    [KeyboardInterrupt], which derives from [BaseException] only. *)
Definition is_Exception (e : exn) : bool :=
  match e with
  | KeyboardInterrupt => false
  | _ => true
  end.

Inductive result (A : Type) : Type :=
| Ok (a : A)
| Raise (e : exn).
Arguments Ok {A} a.
Arguments Raise {A} e.

#[global] Instance result_ret : MRet result := λ A a, Ok a.
#[global] Instance result_bind : MBind result := λ A B f m,
  match m with
  | Ok a => f a
  | Raise e => Raise e
  end.
#[global] Instance result_fmap : FMap result := λ A B f m,
  match m with
  | Ok a => Ok (f a)
  | Raise e => Raise e
  end.

(** A [for] loop whose body may raise: the body is folded from the left
    and the first exception ends the loop. *)
Fixpoint foldM `{MBind M, MRet M} {A S : Type}
    (body : S → A → M S) (s : S) (l : list A) : M S :=
  match l with
  | [] => mret s
  | x :: l' => s' ← body s x; foldM body s' l'
  end.

(** ** Hashing and [set] membership

    A Python [set] holds hashable values up to [==].  Among the values of
    the model, [True == 1] and [False == 0], lists and dicts are
    unhashable; [hkey] is the canonical representative of an equality
    class. *)

Inductive hkey : Type :=
| KNone
| KNum (z : Z)
| KStr (s : string).

#[global] Instance hkey_eq_dec : EqDecision hkey.
Proof. solve_decision. Defined.

#[global] Instance hkey_countable : Countable hkey.
Proof.
  refine (inj_countable'
    (λ k, match k with
          | KNone => inl ()
          | KNum z => inr (inl z)
          | KStr s => inr (inr s)
          end)
    (λ x, match x with
          | inl _ => KNone
          | inr (inl z) => KNum z
          | inr (inr s) => KStr s
          end) _).
  by intros [].
Defined.

Definition py_hash (v : value) : result hkey :=
  match v with
  | VNone => Ok KNone
  | VBool b => Ok (KNum (if b then 1 else 0))
  | VInt z => Ok (KNum z)
  | VStr s => Ok (KStr s)
  | VList _ | VDict _ => Raise TypeError
  end.

(** [s.add(v)] *)
Definition set_add (v : value) (s : gset hkey) : result (gset hkey) :=
  k ← py_hash v; Ok ({[ k ]} ∪ s).

(** [v in s] *)
Definition set_in (v : value) (s : gset hkey) : result bool :=
  k ← py_hash v; Ok (bool_decide (k ∈ s)).

(** [key in inst] and [inst.get(key, dflt)] on a [dict]. *)
Definition dict_has (key : string) (inst : record) : bool :=
  bool_decide (is_Some (inst !! key)).

Definition dict_get (key : string) (dflt : value) (inst : record) : value :=
  default dflt (inst !! key).

(** [v is None] *)
Definition is_none (v : value) : bool :=
  match v with
  | VNone => true
  | _ => false
  end.

(** ** Characters, [str.strip] and [int] *)

Definition is_digit (c : ascii) : bool :=
  let n := nat_of_ascii c in (48 <=? n) && (n <=? 57).

Definition digit_val (c : ascii) : Z := Z.of_nat (nat_of_ascii c) - 48.

(** [str.isspace], the white space [str.strip] removes: TAB, LF, VT, FF,
    CR, the four separators FS, GS, RS, US, the space, and beyond ASCII
    the next-line character (133) and the no-break space (160). *)
Definition is_space (c : ascii) : bool :=
  let n := nat_of_ascii c in
  ((9 <=? n) && (n <=? 13)) || ((28 <=? n) && (n <=? 31)) || (n =? 32)
  || (n =? 133) || (n =? 160).

(** The white space [int] skips around a literal: that of C (TAB, LF,
    VT, FF, CR and the space), and the white space beyond ASCII, which
    [int] turns into spaces first.  The separators FS, GS, RS, US are
    not skipped. *)
Definition is_int_space (c : ascii) : bool :=
  let n := nat_of_ascii c in
  ((9 <=? n) && (n <=? 13)) || (n =? 32) || (n =? 133) || (n =? 160).

Fixpoint lstrip (space : ascii → bool) (s : list ascii) : list ascii :=
  match s with
  | c :: s' => if space c then lstrip space s' else s
  | [] => []
  end.

(** [s.strip()] is [strip is_space s]. *)
Definition strip (space : ascii → bool) (s : list ascii) : list ascii :=
  rev (lstrip space (rev (lstrip space s))).

(** The digits of a decimal literal: groups of digits separated by single
    underscores.  [after_digit] tells whether the previous character was a
    digit. *)
Fixpoint int_digits (s : list ascii) (acc : Z) (after_digit : bool)
  : option Z :=
  match s with
  | [] => if after_digit then Some acc else None
  | c :: s' =>
      if is_digit c then int_digits s' (10 * acc + digit_val c) true
      else if Ascii.eqb c "_" && after_digit then int_digits s' acc false
      else None
  end.

(** [sys.get_int_max_str_digits()], as the interpreter starts. *)
Definition int_max_str_digits : nat := 4300.

(** A decimal literal; one with more digits than the limit is refused. *)
Definition int_literal (ds : list ascii) : option Z :=
  if length (List.filter is_digit ds) <=? int_max_str_digits
  then int_digits ds 0 false
  else None.

(** [int(s)] for a string: surrounding white space, an optional sign, a
    decimal literal. *)
Definition int_of_str (s : string) : option Z :=
  match strip is_int_space (list_ascii_of_string s) with
  | "-"%char :: ds => Z.opp <$> int_literal ds
  | "+"%char :: ds => int_literal ds
  | ds => int_literal ds
  end.

(** [int(v)] *)
Definition py_int (v : value) : result Z :=
  match v with
  | VNone => Raise TypeError
  | VBool b => Ok (if b then 1 else 0)%Z
  | VInt z => Ok z
  | VStr s => from_option Ok (Raise ValueError) (int_of_str s)
  | VList _ | VDict _ => Raise TypeError
  end.

(** ** Comparison of values: [==] and [<] *)

Definition num_of (v : value) : option Z :=
  match v with
  | VBool b => Some (if b then 1 else 0)%Z
  | VInt z => Some z
  | _ => None
  end.

Fixpoint assoc (k : string) (d : list (string * value)) : option value :=
  match d with
  | [] => None
  | (k', v) :: d' => if String.eqb k k' then Some v else assoc k d'
  end.

Fixpoint py_eq (a b : value) : bool :=
  match a, b with
  | VNone, VNone => true
  | VBool x, (VBool _ | VInt _) =>
      from_option (Z.eqb (if x then 1 else 0)) false (num_of b)
  | VInt x, (VBool _ | VInt _) => from_option (Z.eqb x) false (num_of b)
  | VStr s, VStr t => String.eqb s t
  | VList l, VList m =>
      (fix go (l m : list value) : bool :=
         match l, m with
         | [], [] => true
         | x :: l', y :: m' => py_eq x y && go l' m'
         | _, _ => false
         end) l m
  | VDict d, VDict e =>
      (length d =? length e) &&
      forallb (λ kv, match assoc kv.1 e with
                     | Some w => py_eq kv.2 w
                     | None => false
                     end) d
  | _, _ => false
  end.

(** [a < b]: numbers by value, strings by code point, lists by their
    first differing element; any other pair is a [TypeError]. *)
Fixpoint py_lt (a b : value) : result bool :=
  match a, b with
  | VBool x, (VBool _ | VInt _) =>
      from_option (λ y, Ok ((if x then 1 else 0) <? y)%Z) (Raise TypeError)
                  (num_of b)
  | VInt x, (VBool _ | VInt _) =>
      from_option (λ y, Ok (x <? y)%Z) (Raise TypeError) (num_of b)
  | VStr s, VStr t => Ok (String.ltb s t)
  | VList l, VList m =>
      (fix go (l m : list value) : result bool :=
         match l, m with
         | x :: l', y :: m' => if py_eq x y then go l' m' else py_lt x y
         | [], _ :: _ => Ok true
         | _, [] => Ok false
         end) l m
  | _, _ => Raise TypeError
  end.

(** ** The Reconciler: [merge] of merge_final_data.py *)

Module Reconciler.

Definition missing_warning : string :=
  "Skipping entry with missing pull_number".

(** [seen = {inst.get('pull_number') for inst in primary
             if 'pull_number' in inst}] *)
Definition seen_of_primary (primary : list record) : result (gset hkey) :=
  foldM (λ seen inst,
           if dict_has "pull_number" inst
           then set_add (dict_get "pull_number" VNone inst) seen
           else Ok seen)
        ∅ primary.

(** The state of the loop over [secondary]: the set [seen], the list
    [out] and the warnings logged so far. *)
Record merge_state : Type := MergeState {
  seen : gset hkey;
  out : list record;
  warnings : list string
}.

(** One iteration of [for inst in secondary]. *)
Definition merge_step (st : merge_state) (inst : record) : result merge_state :=
  let pn := dict_get "pull_number" VNone inst in
  if is_none pn then
    Ok (MergeState (seen st) (out st) (warnings st ++ [missing_warning]))
  else
    is_seen ← set_in pn (seen st);
    if negb is_seen then
      seen' ← set_add pn (seen st);
      Ok (MergeState seen' (out st ++ [inst]) (warnings st))
    else Ok st.

Definition merge_loop (primary secondary : list record) : result merge_state :=
  seen0 ← seen_of_primary primary;
  foldM merge_step (MergeState seen0 primary []) secondary.

(** [merge(primary, secondary)]: the returned list, and the warnings the
    call logs. *)
Definition merge (primary secondary : list record)
  : result (list record * list string) :=
  st ← merge_loop primary secondary;
  Ok (out st, warnings st).

(** *** The sort pass of [main]

    [list.sort(key=..., reverse=True)] computes every key first (an
    exception raised by [key] leaves the list as it was), reverses the
    list, sorts it stably in ascending order using [<] only, and reverses
    it again.  The stable sort is modelled by insertion from the right;
    on keys that [<] orders totally every stable sort gives this result. *)

Section list_sort.
Context {K A : Type} (lt : K → K → result bool).

Fixpoint insert (x : K * A) (l : list (K * A)) : result (list (K * A)) :=
  match l with
  | [] => Ok [x]
  | y :: l' =>
      b ← lt y.1 x.1;
      if b : bool then l'' ← insert x l'; Ok (y :: l'')
      else Ok (x :: y :: l')
  end.

Fixpoint sort_asc (l : list (K * A)) : result (list (K * A)) :=
  match l with
  | [] => Ok []
  | x :: l' => s ← sort_asc l'; insert x s
  end.

Definition sort_keyed (reverse : bool) (l : list (K * A))
  : result (list (K * A)) :=
  if reverse then s ← sort_asc (rev l); Ok (rev s) else sort_asc l.

Definition list_sort (key : A → result K) (reverse : bool) (l : list A)
  : result (list A) :=
  keyed ← mapM (λ x, k ← key x; Ok (k, x)) l;
  sorted ← sort_keyed reverse keyed;
  Ok (sorted.*2).
End list_sort.

(** [int(x.get('pull_number', 0))] *)
Definition int_key (x : record) : result Z :=
  py_int (dict_get "pull_number" (VInt 0) x).

(** [x.get('pull_number', "")] *)
Definition raw_key (x : record) : result value :=
  Ok (dict_get "pull_number" (VStr "") x).

(** [try: merged.sort(key=int...) except (ValueError, TypeError):
    merged.sort(key=raw...)] *)
Definition sort_pass (merged : list record) : result (list record) :=
  match list_sort (λ a b : Z, Ok (a <? b)%Z) int_key true merged with
  | Ok sorted => Ok sorted
  | Raise (ValueError | TypeError) => list_sort py_lt raw_key true merged
  | Raise e => Raise e
  end.

(** Steps 3 and 3.1 of [main]: the merged and sorted dataset that is
    written to the final file. *)
Definition merge_and_sort (primary secondary : list record)
  : result (list record) :=
  '(merged, _) ← merge primary secondary;
  sort_pass merged.

End Reconciler.

(** ** The version pattern of [get_version_by_git]

    [re.search] tries every start position from the left; at a position a
    backtracking matcher explores the alternatives of the pattern in
    priority order.  [alts r s] lists, in that order, what is left of [s]
    after each way [r] can match a prefix of [s]. *)

Module Regex.

Inductive re : Type :=
| Class (p : ascii → bool)    (* one character of a class *)
| Plus (p : ascii → bool)     (* [class+], greedy *)
| Cat (r1 r2 : re)
| Opt (r : re).               (* [(?:r)?], greedy *)

Fixpoint plus_alts (p : ascii → bool) (s : list ascii) : list (list ascii) :=
  match s with
  | c :: s' => if p c then plus_alts p s' ++ [s'] else []
  | [] => []
  end.

Fixpoint alts (r : re) (s : list ascii) : list (list ascii) :=
  match r with
  | Class p =>
      match s with
      | c :: s' => if p c then [s'] else []
      | [] => []
      end
  | Plus p => plus_alts p s
  | Cat r1 r2 => rest ← alts r1 s; alts r2 rest
  | Opt r => alts r s ++ [s]
  end.

(** A match of [(group)tail] that starts at the head of [s]: the text of
    group 1 in the first alternative of [group] after which [tail]
    matches. *)
Definition match_at (group tail : re) (s : list ascii) : option (list ascii) :=
  rest ← find (λ rest, negb (bool_decide (alts tail rest = []))) (alts group s);
  Some (take (length s - length rest) s).

Fixpoint search (group tail : re) (s : list ascii) : option (list ascii) :=
  match match_at group tail s with
  | Some g => Some g
  | None =>
      match s with
      | [] => None
      | _ :: s' => search group tail s'
      end
  end.

Definition is_dot (c : ascii) : bool := Ascii.eqb c ".".

(** [(\d+\.\d+)] and [(?:\.\d+)?] *)
Definition version_group : re :=
  Cat (Plus is_digit) (Cat (Class is_dot) (Plus is_digit)).
Definition version_tail : re :=
  Opt (Cat (Class is_dot) (Plus is_digit)).

End Regex.

(** The pattern step of [get_version_by_git]:
    [match = re.search(r"(\d+\.\d+)(?:\.\d+)?", version)], then
    [match.group(1)] or [RuntimeError]. *)
Definition extract_version (version : string) : result string :=
  match Regex.search Regex.version_group Regex.version_tail
          (list_ascii_of_string version) with
  | Some g => Ok (string_of_list_ascii g)
  | None => Raise RuntimeError
  end.

(** ** The world of get_versions_by_git.py

    The script acts on the file system and runs git.  The file system is
    the set of paths of the directories that exist (paths are compared as
    written); the outcome of everything the script does not decide itself
    (git, copying, reading files) comes from an environment that may look
    at the whole state, so that an outcome can depend on all that
    happened before.  Every external action is recorded. *)

Module GitVersions.

Inductive event : Type :=
| EvRun (dir : string) (argv : list string) (ok : bool)
| EvMakedirs (d : string) (ok : bool)
| EvCopytree (src dst : string) (ok : bool)
| EvRmtree (d : string)
| EvSave (results : list record).

Record world : Type := World {
  fs : gset string;
  cwd : string;
  history : list event
}.

Record env : Type := Env {
  (* [subprocess.run(argv, check=True)]: the captured stdout, or the
     exception *)
  subprocess_run : world → list string → result string;
  (* [os.makedirs] of a directory that does not exist yet *)
  os_makedirs : world → string → result ();
  shutil_copytree : world → string → string → result ();
  (* [open] and [json.load] / [json.loads] of every line *)
  load_json : world → string → result (list record);
  glob_glob : world → string → list string;
  (* [as_completed(futures)]: the futures in the order they complete *)
  as_completed : world → list (result (option record))
                 → list (result (option record))
}.

Definition M (A : Type) : Type := world → result A * world.

#[global] Instance M_ret : MRet M := λ A a w, (Ok a, w).
#[global] Instance M_bind : MBind M := λ A B f m w,
  match m w with
  | (Ok a, w') => f a w'
  | (Raise e, w') => (Raise e, w')
  end.

Definition raise {A : Type} (e : exn) : M A := λ w, (Raise e, w).

(** A computation that does not touch the world. *)
Definition lift {A : Type} (r : result A) : M A := λ w, (r, w).

(** [try: body except Exception as e: handler e] *)
Definition try_except {A : Type} (body : M A) (handler : exn → M A) : M A :=
  λ w, match body w with
       | (Ok a, w') => (Ok a, w')
       | (Raise e, w') =>
           if is_Exception e then handler e w' else (Raise e, w')
       end.

(** [try: body finally: final] *)
Definition try_finally {A : Type} (body : M A) (final : M ()) : M A :=
  λ w, match body w with
       | (r, w') =>
           match final w' with
           | (Ok _, w'') => (r, w'')
           | (Raise e, w'') => (Raise e, w'')
           end
       end.

Definition record_event (ev : event) (w : world) : world :=
  World (fs w) (cwd w) (history w ++ [ev]).

Definition set_fs (f : gset string) (w : world) : world :=
  World f (cwd w) (history w).

(** *** Paths *)

(** [os.path.join(a, b)] *)
Definition path_join (a b : string) : string :=
  if String.prefix "/" b then b
  else if bool_decide (a = "") || String.prefix "/" (String.rev a)
       then a +:+ b
       else a +:+ "/" +:+ b.

(** [s.replace(c, by)] for a one-character [c] *)
Fixpoint replace_char (c : ascii) (by_ : string) (s : string) : string :=
  match s with
  | EmptyString => EmptyString
  | String x s' =>
      if Ascii.eqb x c then by_ +:+ replace_char c by_ s'
      else String x (replace_char c by_ s')
  end.

(** [p] is [d] or lies below it *)
Definition under (d p : string) : bool :=
  bool_decide (p = d) || String.prefix (d +:+ "/") p.

(** *** File-system and process actions *)

Section actions.
Context (E : env).

Definition getcwd : M string := λ w, (Ok (cwd w), w).

Definition chdir (d : string) : M () := λ w,
  if bool_decide (d ∈ fs w) then (Ok (), World (fs w) d (history w))
  else (Raise FileNotFoundError, w).

Definition path_exists (p : string) : M bool := λ w,
  (Ok (bool_decide (p ∈ fs w)), w).

(** [os.makedirs(d, exist_ok=True)] *)
Definition makedirs (d : string) : M () := λ w,
  if bool_decide (d ∈ fs w) then (Ok (), record_event (EvMakedirs d true) w)
  else match os_makedirs E w d with
       | Ok _ =>
           (Ok (), record_event (EvMakedirs d true) (set_fs ({[ d ]} ∪ fs w) w))
       | Raise e => (Raise e, record_event (EvMakedirs d false) w)
       end.

(** [shutil.rmtree(d, ignore_errors=True)] *)
Definition rmtree (d : string) : M () := λ w,
  (Ok (), record_event (EvRmtree d)
            (set_fs (filter (λ p, ¬ under d p) (fs w)) w)).

(** [shutil.copytree(src, dst, dirs_exist_ok=True)] *)
Definition copytree (src dst : string) : M () := λ w,
  match shutil_copytree E w src dst with
  | Ok _ =>
      (Ok (), record_event (EvCopytree src dst true)
                (set_fs ({[ dst ]} ∪ fs w) w))
  | Raise e => (Raise e, record_event (EvCopytree src dst false) w)
  end.

(** What a command that succeeded leaves on the file system:
    [git clone url path] creates [path]. *)
Definition command_effect (argv : list string) (f : gset string)
  : gset string :=
  match argv with
  | ["git"; "clone"; _; path] => {[ path ]} ∪ f
  | _ => f
  end.

(** [run_command(cmd)]: the exception of a failed command is printed
    and raised again. *)
Definition run_command (argv : list string) : M string := λ w,
  match subprocess_run E w argv with
  | Ok stdout =>
      (Ok stdout, record_event (EvRun (cwd w) argv true)
                    (set_fs (command_effect argv (fs w)) w))
  | Raise e => (Raise e, record_event (EvRun (cwd w) argv false) w)
  end.

(** The context manager [cd]: [with cd(newdir): body] *)
Definition cd {A : Type} (newdir : string) (body : M A) : M A :=
  prevdir ← getcwd;
  chdir newdir;;
  try_finally body (chdir prevdir).

(** [task[key]] *)
Definition item (task : record) (key : string) : M value :=
  match task !! key with
  | Some v => mret v
  | None => raise KeyError
  end.

(** A value used where a [str] is required. *)
Definition as_str (v : value) : M string :=
  match v with
  | VStr s => mret s
  | _ => raise TypeError
  end.

(** *** [get_version_by_git] *)

Definition get_version_by_git (cloned_dir : string) : M string :=
  isdir ← path_exists cloned_dir;
  if negb isdir then raise NotADirectoryError
  else
    cd cloned_dir
      (stdout ← run_command ["git"; "describe"; "--tags"];
       let version :=
         string_of_list_ascii (strip is_space (list_ascii_of_string stdout)) in
       lift (extract_version version)).

(** *** [prepare_repo_cache] *)

Definition clone_argv (repo cache_dir : string) : list string :=
  ["git"; "clone"; "https://github.com/" +:+ repo +:+ ".git";
   path_join cache_dir (replace_char "/" "__" repo)].

(** One iteration of [for task in tasks]. *)
Definition cache_step (cache_dir : string) (repo_cache : gmap string string)
    (task : record) : M (gmap string string) :=
  repo ← item task "repo";
  match repo with
  | VStr repo =>
      if bool_decide (is_Some (repo_cache !! repo)) then mret repo_cache
      else
        let local_path := path_join cache_dir (replace_char "/" "__" repo) in
        try_except
          (run_command (clone_argv repo cache_dir);;
           mret (<[ repo := local_path ]> repo_cache))
          (λ _, mret repo_cache)
  | VList _ | VDict _ => raise TypeError       (* [repo in repo_cache] *)
  | _ => raise AttributeError                  (* [repo.replace] *)
  end.

Definition prepare_repo_cache (tasks : list record) (cache_dir : string)
  : M (gmap string string) :=
  makedirs cache_dir;;
  foldM (cache_step cache_dir) ∅ tasks.

(** *** [process_repo_task] *)

(** [repo_cache.get(repo)] *)
Definition cache_get (repo_cache : gmap string string) (repo : value)
  : M (option string) :=
  match repo with
  | VStr repo => mret (repo_cache !! repo)
  | VList _ | VDict _ => raise TypeError
  | _ => mret None
  end.

Definition process_repo_task (task : record) (testbed : string)
    (repo_cache : gmap string string) : M (option record) :=
  instance_id ← item task "instance_id";
  repo ← item task "repo";
  base_commit ← item task "base_commit";
  instance_id ← as_str instance_id;
  let repo_dir := path_join testbed instance_id in
  makedirs repo_dir;;
  try_finally
    (try_except
       (cached_repo ← cache_get repo_cache repo;
        cached ← match cached_repo with
                 | None => raise RuntimeError
                 | Some c =>
                     if bool_decide (c = "") then raise RuntimeError
                     else
                       ex ← path_exists c;
                       if negb ex then raise RuntimeError else mret c
                 end;
        copytree cached repo_dir;;
        cd repo_dir
          (commit ← as_str base_commit;
           run_command ["git"; "checkout"; commit]);;
        version ← get_version_by_git repo_dir;
        let result := <[ "version" := VStr version ]> task in
        mret (Some result))
       (λ _, mret None))
    (rmtree repo_dir).

(** *** [process_repos]

    Every task is submitted to the pool, and every submitted task runs,
    whatever the others do: leaving the [with] block waits for all of
    them.  What the workers do to the world is modelled by the schedule
    that runs the tasks one after the other in the order of submission;
    a future holds what its task returned or raised. *)
Fixpoint submit_all (tasks : list record) (testbed : string)
    (repo_cache : gmap string string) (w : world)
  : list (result (option record)) * world :=
  match tasks with
  | [] => ([], w)
  | t :: tasks' =>
      let '(r, w') := process_repo_task t testbed repo_cache w in
      let '(futures, w'') := submit_all tasks' testbed repo_cache w' in
      (r :: futures, w'')
  end.

(** [for future in as_completed(futures): res = future.result(); ...]:
    the results are collected in the order of completion, and the first
    future that holds an exception raises it. *)
Definition collect (completed : list (result (option record)))
  : result (list record) :=
  foldM (λ results future,
           res ← future;
           Ok (match res : option record with
               | Some r => results ++ [r]
               | None => results
               end))
        [] completed.

(** The futures of all the tasks, as [as_completed] yields them. *)
Definition run_pool (tasks : list record) (testbed : string)
    (repo_cache : gmap string string) : M (list (result (option record))) :=
  λ w, let '(futures, w') := submit_all tasks testbed repo_cache w in
       (Ok (as_completed E w' futures), w').

Definition process_repos (tasks : list record) (testbed : string)
    (repo_cache : gmap string string) : M (list record) :=
  makedirs testbed;;
  completed ← run_pool tasks testbed repo_cache;
  lift (collect completed).

(** *** [main] *)

(** The command line; [--max_workers] and [--output_dir] play no role
    in the model. *)
Record args : Type := Args {
  arg_instance_path : string;
  arg_testbed : string;
  arg_last_stage_output_dir : option string
}.

Definition get_instances (path : string) : M (list record) := λ w,
  (load_json E w path, w).

Definition glob (pattern : string) : M (list string) := λ w,
  (Ok (glob_glob E w pattern), w).

(** [find_github_file(output_dir)]; [os.path.join] of [None] is a
    [TypeError]. *)
Definition find_github_file (output_dir : option string)
  : M (option string) :=
  match output_dir with
  | None => raise TypeError
  | Some d =>
      m1 ← glob (path_join d "*_versions_by_github.json");
      match m1 with
      | f :: _ => mret (Some f)
      | [] =>
          m2 ← glob (path_join d "*_versions_by_github.jsonl");
          mret (head m2)
      end
  end.

(** [seen = {item.get('instance_id') for item in processed
             if 'instance_id' in item}] and
    [[t for t in tasks if t.get('instance_id') not in seen]] *)
Definition skip_processed (tasks processed : list record)
  : result (list record) :=
  seen ← foldM (λ seen it,
                  if dict_has "instance_id" it
                  then set_add (dict_get "instance_id" VNone it) seen
                  else Ok seen)
               ∅ processed;
  foldM (λ kept t,
           b ← set_in (dict_get "instance_id" VNone t) seen;
           Ok (if b : bool then kept else kept ++ [t]))
        [] tasks.

(** [{"repo", "base_commit", "instance_id"}.issubset(t)] *)
Definition valid_task (t : record) : bool :=
  dict_has "repo" t && dict_has "base_commit" t && dict_has "instance_id" t.

(** The last step of [main]; the path and the format of the output file
    are left out. *)
Definition save_results (results : list record) : M () := λ w,
  (Ok (), record_event (EvSave results) w).

(** Lines 149-166 of [main]: the tasks to work on, or [None] when
    [main] returns because the instance file cannot be read. *)
Definition load_tasks (a : args) : M (option (list record)) :=
  loaded ← try_except (tasks ← get_instances (arg_instance_path a);
                       mret (Some tasks))
                      (λ _, mret None);
  match loaded with
  | None => mret None
  | Some tasks =>
      github_file ← find_github_file (arg_last_stage_output_dir a);
      match github_file with
      | Some f =>
          try_except
            (processed ← get_instances f;
             tasks' ← lift (skip_processed tasks processed);
             mret (Some tasks'))
            (λ _, mret (Some tasks))
      | None => mret (Some tasks)
      end
  end.

Definition main (a : args) : M () :=
  loaded ← load_tasks a;
  match loaded with
  | None => mret ()
  | Some tasks =>
      if forallb valid_task tasks then
        let cache_dir := path_join (arg_testbed a) "_cache" in
        repo_cache ← prepare_repo_cache tasks cache_dir;
        results ← process_repos tasks (arg_testbed a) repo_cache;
        save_results results
      else mret ()
  end.

(** The exit status of the process that runs [main]: 0 when [main]
    returns, 1 when an exception leaves it. *)
Definition exit_status (r : result ()) : Z :=
  match r with
  | Ok _ => 0
  | Raise _ => 1
  end.

End actions.

End GitVersions.

(** ** Vocabulary of the statements about the Reconciler *)

Definition hashable (v : value) : bool :=
  match v with
  | VList _ | VDict _ => false
  | _ => true
  end.

(** The [pull_number] of the record, when it has one, can be put in a
    [set]. *)
Definition pn_hashable (inst : record) : bool :=
  from_option hashable true (inst !! "pull_number").

Definition key_of (v : value) : option hkey :=
  match py_hash v with
  | Ok k => Some k
  | Raise _ => None
  end.

(** The [pull_number] values that occur in a list of records, up to
    [==]. *)
Definition pull_keys (l : list record) : gset hkey :=
  list_to_set (omap (λ inst : record, (inst !! "pull_number") ≫= key_of) l).

(** The [pull_number] of a record that has one which is not [None]. *)
Definition pn_key (inst : record) : option hkey :=
  let pn := dict_get "pull_number" VNone inst in
  if is_none pn then None else key_of pn.

Definition has_pn (k : hkey) (inst : record) : bool :=
  bool_decide (pn_key inst = Some k).

Definition missing_pn (inst : record) : bool :=
  is_none (dict_get "pull_number" VNone inst).

(** The condition under which [merge] appends a record of [secondary]:
    its [pull_number] is there, is not [None], and occurs neither in
    [primary] nor in the records of [secondary] before it. *)
Definition appended_by (primary earlier : list record) (inst : record) : bool :=
  match pn_key inst with
  | Some k => bool_decide (k ∉ pull_keys primary ∧ k ∉ pull_keys earlier)
  | None => false
  end.

(** Sample records: a version record with the given [pull_number]. *)
Definition version_record (pn : value) (version : string) : record :=
  {[ "pull_number" := pn; "version" := VStr version ]}.


(** ** Vocabulary of the statements about the version pattern *)

(** The characters of a string. *)
Abbreviation chars := list_ascii_of_string.

(** The texts [^\d+$] and [^\d+\.\d+$] match. *)
Definition digits (l : list ascii) : Prop := l ≠ [] ∧ Forall is_digit l.

Definition major_minor (l : list ascii) : Prop :=
  ∃ a b, l = a ++ "."%char :: b ∧ digits a ∧ digits b.

(** The longest prefix of characters of a class, and what follows it. *)
Fixpoint span (p : ascii → bool) (s : list ascii) : list ascii * list ascii :=
  match s with
  | c :: s' => if p c then (c :: (span p s').1, (span p s').2) else ([], s)
  | [] => ([], [])
  end.

(** The match of [\d+\.\d+] at the head of a text, if there is one: the
    longest run of digits, a dot, the longest run of digits. *)
Definition match_here (s : list ascii) : option (list ascii) :=
  match span is_digit s with
  | ((_ :: _) as a, "."%char :: r) =>
      match span is_digit r with
      | ((_ :: _) as b, _) => Some (a ++ "."%char :: b)
      | _ => None
      end
  | _ => None
  end.

(** * Properties *)

(** ** Loops *)

Lemma foldM_snoc {A S : Type} (f : S → A → result S) (s : S) (l : list A) (x : A) :
  foldM f s (l ++ [x]) = (s' ← foldM f s l; f s' x).
Proof.
  revert s. induction l as [|y l IH]; intros s; simpl.
  - by destruct (f s x).
  - destruct (f s y); simpl; [apply IH | done].
Qed.

(** ** The Reconciler *)

Section merge_facts.
Import Reconciler.

Lemma pull_keys_cons (inst : record) (l : list record) :
  pull_keys (inst :: l) =
    match (inst !! "pull_number") ≫= key_of with
    | Some k => {[ k ]} ∪ pull_keys l
    | None => pull_keys l
    end.
Proof.
  unfold pull_keys. simpl.
  by destruct ((inst !! "pull_number") ≫= key_of).
Qed.

Lemma pull_keys_app (l1 l2 : list record) :
  pull_keys (l1 ++ l2) = pull_keys l1 ∪ pull_keys l2.
Proof.
  induction l1 as [|x l1 IH]; simpl.
  - unfold pull_keys at 2. simpl. set_solver.
  - rewrite !pull_keys_cons, IH.
    destruct (_ ≫= key_of); set_solver.
Qed.

Lemma seen_of_primary_acc (primary : list record) (acc : gset hkey) :
  Forall pn_hashable primary →
  foldM (λ seen inst,
           if dict_has "pull_number" inst
           then set_add (dict_get "pull_number" VNone inst) seen
           else Ok seen) acc primary = Ok (pull_keys primary ∪ acc).
Proof.
  revert acc. induction primary as [|inst l IH]; intros acc Hh.
  - cbn. f_equal. unfold pull_keys. cbn. set_solver.
  - inversion Hh as [|? ? Hi Hl]; subst.
    rewrite pull_keys_cons. cbn [foldM].
    unfold dict_has, dict_get, pn_hashable in *.
    destruct (inst !! "pull_number") as [v|] eqn:Hv.
    + rewrite bool_decide_eq_true_2 by eauto.
      destruct v; cbn in Hi |- *; try done;
        (rewrite IH by done; f_equal; set_solver).
    + rewrite bool_decide_eq_false_2 by (by intros [? ?]).
      cbn. by rewrite IH.
Qed.

Lemma seen_of_primary_ok (primary : list record) :
  Forall pn_hashable primary →
  seen_of_primary primary = Ok (pull_keys primary).
Proof.
  intros Hh. unfold seen_of_primary.
  rewrite seen_of_primary_acc by done. f_equal. set_solver.
Qed.

Lemma merge_loop_snoc (primary secondary : list record) (inst : record) :
  merge_loop primary (secondary ++ [inst]) =
    (st ← merge_loop primary secondary; merge_step st inst).
Proof.
  unfold merge_loop. destruct (seen_of_primary primary); cbn; [|done].
  apply foldM_snoc.
Qed.

(** A record either lacks a [pull_number] or has a key that is not the
    one of [None]. *)
Lemma pn_cases (inst : record) :
  pn_hashable inst →
  (missing_pn inst = true ∧ pn_key inst = None) ∨
  (∃ k, missing_pn inst = false ∧ pn_key inst = Some k ∧ k ≠ KNone ∧
        (inst !! "pull_number") ≫= key_of = Some k).
Proof.
  unfold pn_hashable, missing_pn, pn_key, dict_get, key_of.
  destruct (inst !! "pull_number") as [v|]; cbn; [|by left].
  destruct v; cbn; intros Hh; try done; eauto 10.
Qed.

Lemma merge_step_missing (st : merge_state) (inst : record) :
  missing_pn inst = true →
  merge_step st inst =
    Ok (MergeState (seen st) (out st) (warnings st ++ [missing_warning])).
Proof. unfold merge_step, missing_pn. by intros ->. Qed.

Lemma merge_step_key (st : merge_state) (inst : record) (k : hkey) :
  pn_key inst = Some k →
  merge_step st inst =
    Ok (if decide (k ∈ seen st) then st
        else MergeState ({[ k ]} ∪ seen st) (out st ++ [inst]) (warnings st)).
Proof.
  unfold merge_step, pn_key, set_in, set_add, key_of.
  destruct (is_none _); [done|].
  destruct (py_hash _) as [k'|]; [|done]. intros [= ->]. cbn.
  by destruct (decide (k ∈ seen st));
    [rewrite bool_decide_eq_true_2 | rewrite bool_decide_eq_false_2].
Qed.

Lemma pn_key_Some (inst : record) (k : hkey) :
  pn_key inst = Some k ↔
  (inst !! "pull_number") ≫= key_of = Some k ∧ k ≠ KNone.
Proof.
  unfold pn_key, dict_get, key_of.
  destruct (inst !! "pull_number") as [v|]; cbn; [|naive_solver].
  destruct v; cbn; naive_solver.
Qed.

Lemma has_pn_None (k : hkey) (inst : record) :
  pn_key inst = None → ¬ has_pn k inst.
Proof. unfold has_pn. intros ->. by rewrite bool_decide_spec. Qed.
Lemma has_pn_Some (k k0 : hkey) (inst : record) :
  pn_key inst = Some k0 → has_pn k inst ↔ k = k0.
Proof. unfold has_pn. intros ->. rewrite bool_decide_spec. naive_solver. Qed.

Lemma pull_keys_has_pn (k : hkey) (l : list record) :
  k ≠ KNone → k ∈ pull_keys l ↔ filter (has_pn k) l ≠ [].
Proof.
  intros Hk. induction l as [|x l IH].
  - unfold pull_keys. cbn. set_solver.
  - rewrite pull_keys_cons.
    destruct (decide (has_pn k x)) as [Hh|Hh].
    + rewrite filter_cons_True by done.
      apply bool_decide_unpack, pn_key_Some in Hh as [-> _]. set_solver.
    + rewrite filter_cons_False by done. rewrite <- IH.
      unfold has_pn in Hh. rewrite bool_decide_spec, pn_key_Some in Hh.
      destruct (_ ≫= key_of) as [k'|]; [|done].
      assert (k ≠ k') by naive_solver. set_solver.
Qed.

(** The state of the loop once [secondary] is consumed. *)
Lemma merge_loop_inv (primary secondary : list record) :
  Forall pn_hashable primary → Forall pn_hashable secondary →
  ∃ st kept,
    merge_loop primary secondary = Ok st ∧
    (∀ k, k ≠ KNone →
          k ∈ seen st ↔ k ∈ pull_keys primary ∨ k ∈ pull_keys secondary) ∧
    out st = primary ++ kept ∧
    kept `sublist_of` secondary ∧
    (∀ k, k ≠ KNone →
          filter (has_pn k) kept =
            if decide (k ∈ pull_keys primary) then []
            else take 1 (filter (has_pn k) secondary)) ∧
    warnings st =
      replicate (length (filter missing_pn secondary)) missing_warning.
Proof.
  intros Hp. induction secondary as [|inst s IH] using rev_ind; intros Hs.
  - exists (MergeState (pull_keys primary) primary []), [].
    unfold merge_loop. rewrite seen_of_primary_ok by done. cbn.
    split_and!; try done.
    + set_solver.
    + by rewrite app_nil_r.
    + intros k _. by case_decide.
  - apply Forall_app in Hs as [Hs Hi]. rewrite Forall_singleton in Hi.
    destruct (IH Hs) as (st & kept & Hst & Hseen & Hout & Hsub & Hfil & Hw).
    rewrite merge_loop_snoc, Hst. cbn.
    destruct (pn_cases inst Hi) as [[Hm Hk] | (k0 & Hm & Hk & Hk0 & Hpk)].
    + rewrite merge_step_missing by done.
      eexists _, kept. split; [done|]. cbn. split_and!.
      * intros k Hne. rewrite Hseen by done. rewrite pull_keys_app.
        assert (k ∉ pull_keys [inst]); [|set_solver].
        rewrite pull_keys_has_pn by done.
        rewrite filter_cons_False by by apply has_pn_None. naive_solver.
      * done.
      * by apply sublist_inserts_r.
      * intros k Hne. rewrite Hfil by done. rewrite filter_app.
        rewrite (filter_cons_False _ inst) by by apply has_pn_None.
        by rewrite app_nil_r.
      * rewrite filter_app, length_app, filter_cons_True by by rewrite Hm.
        cbn. rewrite Hw. rewrite Nat.add_1_r. by rewrite replicate_S_end.
    + rewrite (merge_step_key _ _ k0) by done.
      assert (pull_keys [inst] = {[ k0 ]}) as Hsing.
      { rewrite pull_keys_cons, Hpk. unfold pull_keys. cbn. set_solver. }
      assert (∀ k, has_pn k inst ↔ k = k0) as Hhas.
      { intros k. by apply has_pn_Some. }
      destruct (decide (k0 ∈ seen st)) as [Hin|Hnin].
      * exists st, kept. split; [done|]. split_and!.
        -- intros k Hne. rewrite Hseen by done. rewrite pull_keys_app, Hsing.
           apply Hseen in Hin; [|done]. set_solver.
        -- done.
        -- by apply sublist_inserts_r.
        -- intros k Hne. rewrite Hfil by done. case_decide; [done|].
           rewrite filter_app. destruct (decide (k = k0)) as [->|Hkk].
           ++ assert (k0 ∈ pull_keys s) as Hin'.
              { apply Hseen in Hin; [|done]. by destruct Hin. }
              apply pull_keys_has_pn in Hin'; [|done].
              rewrite filter_cons_True by by apply Hhas.
              destruct (filter (has_pn k0) s); done.
           ++ rewrite (filter_cons_False _ inst); [by rewrite app_nil_r|].
              by rewrite Hhas.
        -- rewrite filter_app, (filter_cons_False _ inst), app_nil_r; [done|].
           by rewrite Hm; intros [].
      * eexists _, (kept ++ [inst]). split; [done|]. cbn. split_and!.
        -- intros k Hne. rewrite pull_keys_app, Hsing.
           rewrite elem_of_union, Hseen by done. set_solver.
        -- by rewrite Hout, app_assoc.
        -- by apply sublist_app.
        -- intros k Hne. rewrite !filter_app, Hfil by done.
           destruct (decide (k = k0)) as [->|Hkk].
           ++ assert (k0 ∉ pull_keys primary ∧ k0 ∉ pull_keys s) as [H1 H2].
              { rewrite Hseen in Hnin by done. tauto. }
              rewrite !decide_False by done.
              assert (filter (has_pn k0) s = []) as ->.
              { destruct (filter (has_pn k0) s) eqn:Hf; [done|].
                exfalso. apply H2, pull_keys_has_pn; [done|]. by rewrite Hf. }
              rewrite filter_cons_True by by apply Hhas. reflexivity.
           ++ rewrite (filter_cons_False _ inst) by by rewrite Hhas.
              rewrite !app_nil_r. by case_decide.
        -- rewrite filter_app, (filter_cons_False _ inst), app_nil_r; [done|].
           by rewrite Hm; intros [].
Qed.
End merge_facts.

Section merge_claims.
Import Reconciler.

Lemma has_pn_KNone (l : list record) : filter (has_pn KNone) l = [].
Proof.
  induction l as [|x l IH]; [done|].
  rewrite filter_cons_False; [done|].
  unfold has_pn. rewrite bool_decide_spec, pn_key_Some. naive_solver.
Qed.

Lemma merge_of_loop (primary secondary : list record) (st : merge_state) :
  merge_loop primary secondary = Ok st →
  merge primary secondary = Ok (out st, warnings st).
Proof. unfold merge. by intros ->. Qed.

(** What one more record at the end of [secondary] changes. *)
Lemma merge_snoc (primary secondary : list record) (inst : record) :
  Forall pn_hashable primary → Forall pn_hashable secondary →
  pn_hashable inst →
  ∃ st kept,
    merge_loop primary secondary = Ok st ∧
    out st = primary ++ kept ∧ kept `sublist_of` secondary ∧
    merge primary (secondary ++ [inst]) =
      Ok (if appended_by primary secondary inst
          then out st ++ [inst] else out st,
          if missing_pn inst
          then warnings st ++ [missing_warning] else warnings st).
Proof.
  intros Hp Hs Hi.
  destruct (merge_loop_inv primary secondary Hp Hs)
    as (st & kept & Hst & Hseen & Hout & Hsub & _ & _).
  exists st, kept. split_and!; [done..|].
  unfold merge. rewrite merge_loop_snoc, Hst. cbn.
  destruct (pn_cases inst Hi) as [[Hm Hk] | (k0 & Hm & Hk & Hk0 & _)].
  - rewrite merge_step_missing by done. cbn.
    unfold appended_by. by rewrite Hk, Hm.
  - rewrite (merge_step_key _ _ k0) by done.
    unfold appended_by. rewrite Hk, Hm.
    destruct (decide (k0 ∈ seen st)) as [Hin|Hnin]; cbn.
    + rewrite bool_decide_eq_false_2; [done|].
      apply Hseen in Hin; [|done]. tauto.
    + rewrite bool_decide_eq_true_2; [done|].
      rewrite Hseen in Hnin by done. tauto.
Qed.

(** C1 (as amended).  When every [pull_number] is hashable, [merge]
    returns [primary] followed by records selected from [secondary], in
    their order; a further record [inst] at the end of [secondary] is
    appended if and only if it has a [pull_number] that is not [None]
    and occurs neither in [primary] nor in the records of [secondary]
    before it, and it costs one warning if and only if its
    [pull_number] is missing or [None]. *)
Theorem merge_appends_unseen (primary secondary : list record) (inst : record) :
  Forall pn_hashable primary → Forall pn_hashable secondary →
  pn_hashable inst →
  ∃ out log kept,
    merge primary secondary = Ok (out, log) ∧
    out = primary ++ kept ∧ kept `sublist_of` secondary ∧
    merge primary [] = Ok (primary, []) ∧
    merge primary (secondary ++ [inst]) =
      Ok (if appended_by primary secondary inst then out ++ [inst] else out,
          if missing_pn inst then log ++ [missing_warning] else log).
Proof.
  intros Hp Hs Hi.
  destruct (merge_snoc primary secondary inst Hp Hs Hi)
    as (st & kept & Hst & Hout & Hsub & Hsnoc).
  exists (out st), (warnings st), kept.
  split_and!; [by apply merge_of_loop|done..| |done].
  unfold merge, merge_loop. by rewrite seen_of_primary_ok.
Qed.

(** C10.  Among the records [merge] appends, those with a given
    [pull_number] that does not occur in [primary] are exactly the
    first record of [secondary] with that [pull_number]: later records
    that repeat it are dropped.  The warnings are one per record of
    [secondary] whose [pull_number] is missing or [None], so a dropped
    repetition logs nothing. *)
Theorem merge_keeps_first_of_repeated
    (primary secondary : list record) (k : hkey) :
  Forall pn_hashable primary → Forall pn_hashable secondary →
  k ∉ pull_keys primary →
  ∃ out log kept,
    merge primary secondary = Ok (out, log) ∧
    out = primary ++ kept ∧
    filter (has_pn k) kept = take 1 (filter (has_pn k) secondary) ∧
    log = replicate (length (filter missing_pn secondary)) missing_warning.
Proof.
  intros Hp Hs Hk.
  destruct (merge_loop_inv primary secondary Hp Hs)
    as (st & kept & Hst & _ & Hout & _ & Hfil & Hw).
  exists (out st), (warnings st), kept.
  split; [by apply merge_of_loop|]. split; [done|]. split; [|done].
  destruct (decide (k = KNone)) as [->|Hne].
  - by rewrite !has_pn_KNone.
  - rewrite Hfil by done. by rewrite decide_False.
Qed.
End merge_claims.

Section merge_examples.
Import Reconciler.

Lemma merge_appends_unseen_witness :
  let p := [version_record (VInt 5) "1.0"; version_record (VInt 3) "0.9"] in
  let s := [version_record (VInt 3) "0.8"] in
  let inst := version_record (VInt 7) "2.0" in
  ∃ out log kept,
    merge p s = Ok (out, log) ∧
    out = p ++ kept ∧ kept `sublist_of` s ∧
    merge p [] = Ok (p, []) ∧
    merge p (s ++ [inst]) =
      Ok (if appended_by p s inst then out ++ [inst] else out,
          if missing_pn inst then log ++ [missing_warning] else log).
Proof.
  apply (merge_appends_unseen
           [version_record (VInt 5) "1.0"; version_record (VInt 3) "0.9"]
           [version_record (VInt 3) "0.8"]
           (version_record (VInt 7) "2.0"));
    repeat constructor.
Defined.

(** C1 as stated fails: the second record of [secondary] has a
    [pull_number], 7, that is not [None] and does not occur in
    [primary], and yet [merge] does not append it. *)
Lemma merge_drops_repeated_secondary :
  let a := version_record (VInt 7) "1.0" in
  let b := version_record (VInt 7) "2.0" in
  merge [] [a; b] = Ok ([a], []) ∧
  dict_get "pull_number" VNone b = VInt 7 ∧
  pn_key b = Some (KNum 7) ∧
  KNum 7 ∉ pull_keys [] ∧
  b ∉ [a].
Proof.
  cbn zeta. split_and!; [by vm_compute..| |].
  - set_solver.
  - rewrite list_elem_of_singleton. intros H.
    apply (f_equal (lookup "version")) in H. by vm_compute in H.
Qed.

Lemma merge_keeps_first_of_repeated_witness :
  let p := [version_record (VInt 5) "1.0"] in
  let s := [version_record (VInt 7) "1.0"; version_record VNone "1.1";
            version_record (VInt 7) "2.0"] in
  ∃ out log kept,
    merge p s = Ok (out, log) ∧
    out = p ++ kept ∧
    filter (has_pn (KNum 7)) kept = take 1 (filter (has_pn (KNum 7)) s) ∧
    log = replicate (length (filter missing_pn s)) missing_warning.
Proof.
  apply (merge_keeps_first_of_repeated
           [version_record (VInt 5) "1.0"]
           [version_record (VInt 7) "1.0"; version_record VNone "1.1";
            version_record (VInt 7) "2.0"] (KNum 7));
    [repeat constructor..|].
  apply (bool_decide_unpack _). vm_compute. exact I.
Defined.

(** C3: [merge] keeps two records of [primary] that have the same
    [pull_number]. *)
Lemma merge_keeps_primary_duplicates :
  let a := version_record (VInt 5) "1.0" in
  let b := version_record (VInt 5) "2.0" in
  merge [a; b] [] = Ok ([a; b], []) ∧
  pn_key a = Some (KNum 5) ∧ pn_key b = Some (KNum 5) ∧ a ≠ b.
Proof.
  cbn zeta. split_and!; [by vm_compute..|].
  intros H. apply (f_equal (lookup "version")) in H. by vm_compute in H.
Qed.

End merge_examples.

Section merge_swap.
Import Reconciler.






End merge_swap.


(** ** The version pattern *)

Section regex_facts.
Import Regex.

Lemma span_app (p : ascii → bool) (s : list ascii) :
  s = (span p s).1 ++ (span p s).2.
Proof.
  induction s as [|c s IH]; [done|]. cbn.
  destruct (p c); cbn; [by f_equal|done].
Qed.

Lemma span_Forall (p : ascii → bool) (s : list ascii) :
  Forall p (span p s).1.
Proof.
  induction s as [|c s IH]; cbn; [done|].
  destruct (p c) eqn:Hc; cbn; [|done].
  constructor; [by rewrite Hc|done].
Qed.

Lemma span_rest (p : ascii → bool) (s : list ascii) (c : ascii) (r : list ascii) :
  (span p s).2 = c :: r → p c = false.
Proof.
  induction s as [|d s IH]; cbn; [done|].
  destruct (p d) eqn:Hd; cbn; [done|]. by intros [= -> ->].
Qed.

(** The run found by [span] extends every run of the class at the head of
    the text. *)
Lemma span_prefix (p : ascii → bool) (a rest : list ascii) :
  Forall p a →
  span p (a ++ rest) = (a ++ (span p rest).1, (span p rest).2).
Proof.
  induction a as [|c a IH]; intros Ha; cbn.
  - by destruct (span p rest).
  - inversion Ha as [|? ? Hc Ha']; subst.
    destruct (p c); [|done]. by rewrite IH.
Qed.

Lemma span_stop (p : ascii → bool) (c : ascii) (r : list ascii) :
  p c = false → span p (c :: r) = ([], c :: r).
Proof. cbn. by intros ->. Qed.

Lemma plus_alts_stop (p : ascii → bool) (s : list ascii) :
  (span p s).1 = [] → plus_alts p s = [].
Proof. destruct s as [|c s]; cbn; [done|]. by destruct (p c). Qed.

(** The alternatives of a greedy [class+]: first what follows the longest
    run, then texts that still begin with a character of the class. *)
Lemma plus_alts_span (p : ascii → bool) (s : list ascii) :
  (span p s).1 ≠ [] →
  ∃ others,
    plus_alts p s = (span p s).2 :: others ∧
    Forall (λ o, ∃ c o', o = c :: o' ∧ p c = true) others.
Proof.
  induction s as [|c s IH]; cbn; [done|].
  destruct (p c) eqn:Hc; cbn; [intros _|done].
  destruct (decide ((span p s).1 = [])) as [Hs|Hs].
  - exists []. rewrite plus_alts_stop by done. split; [|done].
    cbn. f_equal. etrans; [apply (span_app p s)|]. by rewrite Hs.
  - destruct (IH Hs) as (others & -> & Hall).
    exists (others ++ [s]). split; [done|].
    apply Forall_app. split; [done|]. apply Forall_singleton.
    destruct s as [|d s]; [done|]. cbn in Hs.
    destruct (p d) eqn:Hd; [|done]. eauto.
Qed.

Lemma digit_not_dot (c : ascii) : is_digit c = true → is_dot c = false.
Proof. by destruct c as [[] [] [] [] [] [] [] []]. Qed.

Lemma alts_tail_nonempty (rest : list ascii) : alts version_tail rest ≠ [].
Proof. cbn. by destruct (_ ≫= _). Qed.

Lemma bind_digit_heads (others : list (list ascii)) :
  Forall (λ o, ∃ c o', o = c :: o' ∧ is_digit c = true) others →
  others ≫= alts (Cat (Class is_dot) (Plus is_digit)) = [].
Proof.
  induction 1 as [|o others (c & o' & -> & Hc) _ IH]; [done|].
  cbn. rewrite (digit_not_dot c Hc). cbn. exact IH.
Qed.

Lemma alts_cat (r1 r2 : re) (s : list ascii) :
  alts (Cat r1 r2) s = alts r1 s ≫= alts r2.
Proof. done. Qed.

Lemma alts_group_stop (s : list ascii) :
  (span is_digit s).1 = [] → alts version_group s = [].
Proof. intros Hs. cbn. by rewrite plus_alts_stop. Qed.

Lemma alts_group_run (s : list ascii) :
  (span is_digit s).1 ≠ [] →
  alts version_group s =
    match (span is_digit s).2 with
    | c :: r => if is_dot c then plus_alts is_digit r else []
    | [] => []
    end.
Proof.
  intros Hs. destruct (plus_alts_span is_digit s Hs) as (others & Hp & Hall).
  unfold version_group. rewrite alts_cat.
  change (alts (Plus is_digit) s) with (plus_alts is_digit s). rewrite Hp.
  change ((?x :: others) ≫= ?f) with (f x ++ (others ≫= f)).
  rewrite (bind_digit_heads others Hall), app_nil_r.
  destruct (span is_digit s).2 as [|c r]; [done|]. cbn.
  destruct (is_dot c); cbn; [by rewrite app_nil_r|done].
Qed.

Lemma find_tail_head (l : list (list ascii)) :
  find (λ rest, negb (bool_decide (alts version_tail rest = []))) l = head l.
Proof.
  destruct l as [|x l]; [done|]. cbn -[alts version_tail].
  by rewrite bool_decide_eq_false_2 by apply alts_tail_nonempty.
Qed.

Lemma take_group (x y z : list ascii) :
  take (length (x ++ "."%char :: y ++ z) - length z) (x ++ "."%char :: y ++ z)
  = x ++ "."%char :: y.
Proof.
  replace (x ++ "."%char :: y ++ z) with ((x ++ "."%char :: y) ++ z)
    by by rewrite <- app_assoc.
  rewrite length_app.
  replace (length (x ++ "."%char :: y) + length z - length z)
    with (length (x ++ "."%char :: y)) by lia.
  apply take_app_length.
Qed.

(** At a given position the backtracking matcher finds the longest run
    of digits, a dot and the longest run of digits. *)
Lemma match_at_here (s : list ascii) :
  match_at version_group version_tail s = match_here s.
Proof.
  unfold match_at, match_here. rewrite find_tail_head.
  pose proof (span_app is_digit s) as Hs.
  destruct (span is_digit s) as [a rest] eqn:Ha. cbn in Hs.
  destruct a as [|a0 a].
  { rewrite alts_group_stop by by rewrite Ha. done. }
  rewrite alts_group_run by by rewrite Ha. rewrite Ha. cbn [snd].
  destruct rest as [|c r]; [done|].
  unfold is_dot. destruct (Ascii.eqb_spec c ".") as [->|Hc].
  - pose proof (span_app is_digit r) as Hr.
    destruct (span is_digit r) as [b rest2] eqn:Hb. cbn in Hr.
    destruct b as [|b0 b].
    { rewrite plus_alts_stop by by rewrite Hb. done. }
    destruct (plus_alts_span is_digit r) as (others & -> & _);
      [by rewrite Hb|].
    rewrite Hb. cbn [snd head mbind option_bind]. f_equal.
    rewrite Hs, Hr. apply (take_group (a0 :: a) (b0 :: b) rest2).
  - cbn. destruct c as [[] [] [] [] [] [] [] []]; done.
Qed.

Lemma search_here (s : list ascii) :
  search version_group version_tail s =
    match match_here s with
    | Some g => Some g
    | None =>
        match s with
        | [] => None
        | _ :: s' => search version_group version_tail s'
        end
    end.
Proof. destruct s; cbn [search]; by rewrite match_at_here. Qed.

Lemma is_digit_dot : is_digit "." = false.
Proof. done. Qed.

(** A match at the head of a text is a [major.minor] token that is not
    followed by a further digit. *)
Lemma match_here_Some (s g : list ascii) :
  match_here s = Some g →
  major_minor g ∧
  ∃ post, s = g ++ post ∧ ∀ c r, post = c :: r → is_digit c = false.
Proof.
  unfold match_here.
  pose proof (span_app is_digit s) as Hs.
  pose proof (span_Forall is_digit s) as Ha.
  destruct (span is_digit s) as [a rest]. cbn in Hs, Ha.
  destruct a as [|a0 a]; [done|]. destruct rest as [|c r]; [done|].
  destruct (Ascii.eqb_spec c ".") as [->|Hc];
    [|by destruct c as [[] [] [] [] [] [] [] []]].
  pose proof (span_app is_digit r) as Hr.
  pose proof (span_Forall is_digit r) as Hb.
  pose proof (span_rest is_digit r) as Hrest.
  destruct (span is_digit r) as [b post]. cbn in Hr, Hb, Hrest.
  destruct b as [|b0 b]; [done|]. intros [= <-]. split.
  - exists (a0 :: a), (b0 :: b). by split_and!.
  - exists post. split; [|done]. rewrite Hs, Hr. cbn.
    by rewrite <- app_assoc.
Qed.

(** Where a [major.minor] token starts, there is a match. *)
Lemma match_here_major_minor (g post : list ascii) :
  major_minor g → is_Some (match_here (g ++ post)).
Proof.
  intros (a & b & -> & [Ha0 Ha] & [Hb0 Hb]). unfold match_here.
  rewrite <- app_assoc. cbn [app].
  rewrite (span_prefix is_digit a) by done.
  rewrite (span_stop is_digit) by done. rewrite app_nil_r. cbn [fst snd].
  destruct a as [|a0 a]; [done|].
  rewrite (span_prefix is_digit b) by done. cbn [fst snd].
  destruct b as [|b0 b]; [done|]. by eexists.
Qed.

(** [search] returns the match at the first position that has one. *)
Lemma search_Some (s g : list ascii) :
  search version_group version_tail s = Some g →
  ∃ pre post,
    s = pre ++ g ++ post ∧ match_here (g ++ post) = Some g ∧
    ∀ pre1 pre2, pre = pre1 ++ pre2 → pre2 ≠ [] →
                 match_here (pre2 ++ g ++ post) = None.
Proof.
  induction s as [|c s IH]; rewrite search_here.
  - destruct (match_here []) as [g'|] eqn:Hm; [|done]. intros [= ->].
    destruct (match_here_Some _ _ Hm) as (_ & post & Hs & _).
    exists [], post. split_and!; [done|by rewrite <- Hs|].
    intros pre1 pre2 Hp. by destruct pre1, pre2.
  - destruct (match_here (c :: s)) as [g'|] eqn:Hm.
    + intros [= ->].
      destruct (match_here_Some _ _ Hm) as (_ & post & Hs & _).
      exists [], post. split_and!; [done|by rewrite <- Hs|].
      intros pre1 pre2 Hp. by destruct pre1, pre2.
    + intros Hg. destruct (IH Hg) as (pre & post & -> & Hh & Hleft).
      exists (c :: pre), post. split_and!; [done..|].
      intros pre1 pre2 Hp Hne. destruct pre1 as [|c1 pre1].
      * cbn in Hp. by subst pre2.
      * injection Hp as -> ->. by eapply Hleft.
Qed.

Lemma search_None (s : list ascii) :
  search version_group version_tail s = None →
  ∀ pre rest, s = pre ++ rest → match_here rest = None.
Proof.
  induction s as [|c s IH]; rewrite search_here.
  - destruct (match_here []) eqn:Hm; [done|]. intros _ pre rest Hs.
    symmetry in Hs. by apply app_eq_nil in Hs as [-> ->].
  - destruct (match_here (c :: s)) eqn:Hm; [done|]. intros Hn pre rest Hs.
    destruct pre as [|c' pre]; cbn in Hs; [by subst rest|].
    injection Hs as -> ->. by eapply IH.
Qed.

(** Two splits of the same text: the one with the shorter first part
    starts inside the first part of the other. *)
Lemma app_split_shorter {X : Type} (p1 r1 p2 r2 : list X) :
  p1 ++ r1 = p2 ++ r2 → length p2 < length p1 →
  ∃ q, q ≠ [] ∧ p1 = p2 ++ q ∧ r2 = q ++ r1.
Proof.
  revert p2. induction p1 as [|x p1 IH]; intros p2 Heq Hlen; [cbn in *; lia|].
  destruct p2 as [|y p2].
  - exists (x :: p1). by split_and!.
  - cbn in Heq, Hlen. injection Heq as -> Heq.
    destruct (IH p2 Heq ltac:(lia)) as (q & Hq & -> & ->).
    exists q. by split_and!.
Qed.

End regex_facts.

Section version_pattern.
Import Regex.

Lemma chars_of_list (l : list ascii) : chars (string_of_list_ascii l) = l.
Proof. apply list_ascii_of_string_of_list_ascii. Qed.

Lemma extract_version_Ok (version g : string) :
  extract_version version = Ok g →
  search version_group version_tail (chars version) = Some (chars g).
Proof.
  unfold extract_version. destruct (search _ _ _) as [g'|]; [|done].
  intros [= <-]. by rewrite chars_of_list.
Qed.

(** The version that [get_version_by_git] extracts from a descriptor:
    a token [major.minor] of the descriptor, the one that starts first,
    taken with all the digits of its minor part. *)
Theorem extract_version_leftmost_longest (version g : string) :
  extract_version version = Ok g →
  major_minor (chars g) ∧
  ∃ pre post,
    chars version = pre ++ chars g ++ post ∧
    (∀ c r, post = c :: r → is_digit c = false) ∧
    ∀ pre' g' post',
      chars version = pre' ++ g' ++ post' → major_minor g' →
      length pre ≤ length pre'.
Proof.
  intros Hg. apply extract_version_Ok, search_Some in Hg
    as (pre & post & Hs & Hh & Hleft).
  destruct (match_here_Some _ _ Hh) as (Hmm & post' & Heq & Hpost).
  apply app_inv_head in Heq as <-.
  split; [done|]. exists pre, post. split_and!; [done..|].
  intros pre' g' post' Hs' Hg'.
  destruct (decide (length pre ≤ length pre')) as [|Hlt]; [done|]. exfalso.
  rewrite Hs in Hs'.
  destruct (app_split_shorter _ _ _ _ Hs' ltac:(lia)) as (q & Hq & Hpre & Hrest).
  specialize (Hleft pre' q Hpre Hq). rewrite <- Hrest in Hleft.
  destruct (match_here_major_minor g' post' Hg') as [? Hsome]. congruence.
Qed.

(** Extraction fails, with [RuntimeError], exactly on the descriptors
    that contain no token [major.minor]. *)
Theorem extract_version_raises_iff (version : string) (e : exn) :
  extract_version version = Raise e ↔
  e = RuntimeError ∧
  ∀ pre g post, chars version = pre ++ g ++ post → ¬ major_minor g.
Proof.
  unfold extract_version.
  destruct (search _ _ _) as [g|] eqn:Hs; split.
  - done.
  - intros [_ Hno]. exfalso.
    apply search_Some in Hs as (pre & post & Hs & Hh & _).
    apply (Hno pre g post Hs). by apply match_here_Some in Hh as [? _].
  - intros [= <-]. split; [done|]. intros pre g post Hv Hg.
    pose proof (search_None _ Hs pre (g ++ post) Hv) as Hn.
    destruct (match_here_major_minor g post Hg) as [? Hsome]. congruence.
  - by intros [-> _].
Qed.

Lemma match_here_nondigit (c : ascii) (s : list ascii) :
  is_digit c = false → match_here (c :: s) = None.
Proof. unfold match_here. cbn. by intros ->. Qed.

Lemma search_tag (pre a b rest : list ascii) :
  Forall (λ c, is_digit c = false) pre → digits a → digits b →
  (∀ c r, rest = c :: r → is_digit c = false) →
  search version_group version_tail (pre ++ a ++ "."%char :: b ++ rest)
  = Some (a ++ "."%char :: b).
Proof.
  intros Hpre [Ha0 Ha] [Hb0 Hb] Hrest.
  induction Hpre as [|c pre Hc _ IH]; rewrite search_here.
  - cbn [app]. unfold match_here.
    rewrite (span_prefix is_digit a) by done.
    rewrite (span_stop is_digit) by done. rewrite app_nil_r.
    destruct a as [|a0 a]; [done|]. cbn -[span].
    rewrite (span_prefix is_digit b) by done.
    assert ((span is_digit rest).1 = []) as ->.
    { destruct rest as [|c r]; [done|]. cbn. by rewrite (Hrest c r). }
    rewrite app_nil_r. cbn [fst snd]. by destruct b.
  - cbn [app]. by rewrite match_here_nondigit.
Qed.

(** A descriptor that has no digit before its first token [major.minor]
    yields that token with all its digits; what follows it, a patch
    number or a commit count, is left out. *)
Theorem extract_version_of_tag (version : string) (pre a b rest : list ascii) :
  chars version = pre ++ a ++ "."%char :: b ++ rest →
  Forall (λ c, is_digit c = false) pre → digits a → digits b →
  (∀ c r, rest = c :: r → is_digit c = false) →
  extract_version version = Ok (string_of_list_ascii (a ++ "."%char :: b)).
Proof.
  intros Hv Hpre Ha Hb Hrest. unfold extract_version.
  by rewrite Hv, search_tag.
Qed.

End version_pattern.

Section version_pattern_examples.

Lemma extract_version_leftmost_longest_witness :
  major_minor (chars "2.3") ∧
  ∃ pre post,
    chars "v2.3.1-0-gabc" = pre ++ chars "2.3" ++ post ∧
    (∀ c r, post = c :: r → is_digit c = false) ∧
    ∀ pre' g' post',
      chars "v2.3.1-0-gabc" = pre' ++ g' ++ post' → major_minor g' →
      length pre ≤ length pre'.
Proof.
  apply (extract_version_leftmost_longest "v2.3.1-0-gabc" "2.3").
  reflexivity.
Defined.

Lemma extract_version_of_tag_witness :
  extract_version "v2.3.1-0-gabc" = Ok "2.3".
Proof.
  apply (extract_version_of_tag "v2.3.1-0-gabc"
           (chars "v") (chars "2") (chars "3") (chars ".1-0-gabc")).
  - reflexivity.
  - repeat constructor.
  - split; [discriminate|repeat constructor].
  - split; [discriminate|repeat constructor].
  - intros c r [= <- <-]. reflexivity.
Defined.

End version_pattern_examples.
